(** * CineVault: [insert_setup.py], the setup-wizard inserter

    The script reads [web/index.html], splices a fixed block of markup in
    front of the first occurrence of a fixed marker comment with
    [content.replace(marker, setup_html + marker, 1)], writes the text back
    to the same path and prints a confirmation line.

    The development has three layers:
    - [PyStr]: the [str] methods the script relies on ([startswith], [find],
      [replace] with a count), over an arbitrary character type;
    - the literals [marker] and [setup_html] and the pure step [splice];
    - the script itself in a small error-and-state monad over a world with a
      file store, the two output streams and the interpreter's handling of an
      uncaught exception; next to it the newline translation of the text
      layer, which relates the text the script handles to the characters of
      the file, and the interpreter's shutdown, which decides the status of
      the process. *)

From Stdlib Require Import ZArith Ascii String.
From stdpp Require Import base decidable option list strings pretty gmap.

Local Open Scope nat_scope.

(** ** Python [str] operations *)

Module PyStr.
Section str.
Context {A : Type} `{EqDecision A}.
Implicit Types s sub old new x y : list A.

(** [s.startswith(sub)] *)
Fixpoint startswith s sub {struct sub} : bool :=
  match sub, s with
  | [], _ => true
  | _ :: _, [] => false
  | b :: sub', a :: s' => bool_decide (a = b) && startswith s' sub'
  end.

(** [s.find(sub)]: the lowest index at which [sub] occurs in [s]; Python's
    [-1] is [None]. *)
Fixpoint find s sub : option nat :=
  if startswith s sub then Some 0
  else match s with
       | [] => None
       | _ :: s' => S <$> find s' sub
       end.

(** [s.count(sub)] counts disjoint occurrences; [occurrences] below counts
    every index at which [sub] matches, which is the notion the statements
    about "the number of occurrences" use. *)
Fixpoint occurrences s sub : nat :=
  (if startswith s sub then 1 else 0) +
  match s with
  | [] => 0
  | _ :: s' => occurrences s' sub
  end.

(** [s.replace(old, new, n)] for a non-empty [old]: the leftmost [n]
    disjoint occurrences, scanned left to right, are replaced. *)
Fixpoint replace_upto (n : nat) s old new : list A :=
  match n with
  | 0 => s
  | S n' =>
      match find s old with
      | None => s
      | Some i =>
          take i s ++ new ++ replace_upto n' (drop (i + length old) s) old new
      end
  end.

(** [s.replace(old, new, n)] for the empty [old]: [new] goes in front of the
    string and after each character, [n] times at most. *)
Fixpoint interleave (n : nat) s new : list A :=
  match n with
  | 0 => s
  | S n' =>
      new ++ match s with
             | [] => []
             | a :: s' => a :: interleave n' s' new
             end
  end.

(** [s.replace(old, new, count)]; a negative [count] (the default [-1])
    replaces every occurrence, and there are at most [length s + 1]. *)
Definition replace s old new (count : Z) : list A :=
  let n := if (count <? 0)%Z then S (length s) else Z.to_nat count in
  match old with
  | [] => interleave n s new
  | _ :: _ => replace_upto n s old new
  end.

End str.
End PyStr.

Import PyStr.

(** ** The literals of the script

    A Python [str] is a sequence of code points. *)

Abbreviation str := (list N).

Definition lit (s : string) : str := N_of_ascii <$> list_ascii_of_string s.

(** The block is written below line by line, with an apostrophe standing for
    each double quote of the source; [dq] puts the double quotes back (the
    source block has no apostrophe of its own). *)
Definition dq (s : str) : str :=
  (fun c => if (c =? 39)%N then 34%N else c) <$> s.

Definition newline : str := [10%N].

Definition marker : str := lit "    <!-- Login Modal (standard) -->".

Definition setup_html_lines : list string :=
  [
      "    <!-- Setup Wizard (first run) -->";
      "    <div class='setup-overlay' id='setupOverlay'>";
      "        <div class='setup-card'>";
      "            <div class='setup-logo'>CineVault Setup</div>";
      "            <div class='setup-subtitle'>Create your admin account to get started</div>";
      "            <div id='setupMessage'></div>";
      "            <form id='setupForm'>";
      "                <div class='form-group'>";
      "                    <label>Username</label>";
      "                    <input type='text' id='setupUsername' required autocomplete='username'>";
      "                </div>";
      "                <div class='setup-row'>";
      "                    <div class='form-group'>";
      "                        <label>First Name</label>";
      "                        <input type='text' id='setupFirstName' required>";
      "                    </div>";
      "                    <div class='form-group'>";
      "                        <label>Last Name</label>";
      "                        <input type='text' id='setupLastName' required>";
      "                    </div>";
      "                </div>";
      "                <div class='form-group'>";
      "                    <label>Email</label>";
      "                    <input type='email' id='setupEmail' required autocomplete='email'>";
      "                </div>";
      "                <div class='form-group'>";
      "                    <label>Password</label>";
      "                    <input type='password' id='setupPassword' required autocomplete='new-password'>";
      "                </div>";
      "                <div class='form-group'>";
      "                    <label>PIN (for fast login)</label>";
      "                    <input type='text' id='setupPin' inputmode='numeric' maxlength='10' autocomplete='off' placeholder='4-digit PIN'>";
      "                    <div class='setup-pin-note'>Numeric only. Used for quick sign-in on shared devices.</div>";
      "                </div>";
      "                <button type='submit' class='btn-primary' style='width:100%;margin-top:16px;'>Create Admin Account</button>";
      "            </form>";
      "        </div>";
      "    </div>";
      EmptyString
  ].

(** The triple-quoted literal: every line above followed by a line feed, so
    the block ends with an empty line. *)
Definition setup_html : str :=
  dq (concat ((fun l => lit l ++ newline) <$> setup_html_lines)).

(** Line 48: [content.replace(marker, setup_html + marker, 1)]. *)
Definition splice (content : str) : str :=
  replace content marker (setup_html ++ marker) 1.

(** ** The world the script runs in

    The store keeps, for a regular file, the text that [f.read()] returns for
    it and that [f.write] stores in it. The newline translation of Python's
    text layer lies below the store and is given further down
    ([universal_newlines], [write_newlines]); the codec is not modelled, and
    a file whose bytes it rejects is [Undecodable].

    The store is flat: a path names one file. There are no links, no parent
    directories and no devices that are read-only or that limit the size of
    a file, so the only ways an open or a write fails here are a missing
    file, a directory in the place of the file, a missing permission and a
    device without room. *)

Inductive body :=
  | Text (s : str)
  | Undecodable.

Record file := File { readable : bool; writable : bool; data : body }.

Inductive node :=
  | Dir
  | Reg (f : file).

(** [room] is the number of characters the device accepts for one file
    ([None]: no limit). *)
Record world := World {
  fs : gmap string node;
  room : option nat;
  stdout : string;
  stderr : string
}.

Definition set_fs (g : gmap string node → gmap string node) (w : world) : world :=
  World (g (fs w)) (room w) (stdout w) (stderr w).

Definition set_data (b : body) (f : file) : file :=
  File (readable f) (writable f) b.

(** The text of the regular file at [name], when there is one. *)
Definition text_at (w : world) (name : string) : option str :=
  match fs w !! name with
  | Some (Reg f) => match data f with Text s => Some s | Undecodable => None end
  | _ => None
  end.

(** Whether the device takes a file of text [s]. *)
Definition has_room (w : world) (s : str) : bool :=
  match room w with
  | None => true
  | Some n => bool_decide (length s ≤ n)
  end.

(** *** Exceptions *)

Inductive exn :=
  | OSError (errno : nat) (filename : option string)
  | UnicodeDecodeError
  | UnsupportedOperation.

Definition ENOENT := 2.
Definition EBADF := 9.
Definition EACCES := 13.
Definition EISDIR := 21.
Definition ENOSPC := 28.

Definition strerror (errno : nat) : string :=
  match errno with
  | 2 => "No such file or directory"
  | 9 => "Bad file descriptor"
  | 13 => "Permission denied"
  | 21 => "Is a directory"
  | 28 => "No space left on device"
  | _ => "Unknown error"
  end.

(** [OSError] picks its subclass from the error number. *)
Definition class_name (e : exn) : string :=
  match e with
  | OSError 2 _ => "FileNotFoundError"
  | OSError 13 _ => "PermissionError"
  | OSError 21 _ => "IsADirectoryError"
  | OSError _ _ => "OSError"
  | UnicodeDecodeError => "UnicodeDecodeError"
  | UnsupportedOperation => "io.UnsupportedOperation"
  end.

Definition lf : string := String (ascii_of_nat 10) EmptyString.

Definition describe (e : exn) : string :=
  match e with
  | OSError n None => "[Errno " +:+ pretty n +:+ "] " +:+ strerror n
  | OSError n (Some name) =>
      "[Errno " +:+ pretty n +:+ "] " +:+ strerror n +:+ ": '" +:+ name +:+ "'"
  | UnicodeDecodeError => "codec can't decode bytes"
  | UnsupportedOperation => "not readable or not writable"
  end.

(** What the interpreter writes to the error stream for an uncaught
    exception, cut down to the header and the last line: the frame lines in
    between, and any report of an earlier exception chained in front, are
    left out, and the words of the codec for [UnicodeDecodeError], which
    depend on the bytes, are a stand-in. What the claims say of the report
    is stated with [reports], which leaves room for what is left out here. *)
Definition traceback (e : exn) : string :=
  "Traceback (most recent call last):" +:+ lf +:+
  class_name e +:+ ": " +:+ describe e +:+ lf.

(** *** Computations that change the world and may raise *)

Inductive result (X : Type) :=
  | Ok (x : X)
  | Raise (e : exn).
Arguments Ok {X} x.
Arguments Raise {X} e.

Definition io (X : Type) : Type := world → result X * world.

#[global] Instance io_ret : MRet io := λ X x w, (Ok x, w).

#[global] Instance io_bind : MBind io := λ X Y k m w,
  match m w with
  | (Ok x, w') => k x w'
  | (Raise e, w') => (Raise e, w')
  end.

Definition raise {X} (e : exn) : io X := λ w, (Raise e, w).

(** *** The built-ins the script calls *)

Inductive mode := R | W.

Record handle := Handle { h_name : string; h_mode : mode }.

(** [open(name, 'r')] and [open(name, 'w')]. Mode ['w'] empties an existing
    file, or creates it, once the open itself is granted; a refused open
    leaves the store as it is. *)
Definition open (name : string) (m : mode) : io handle := λ w,
  match fs w !! name, m with
  | Some Dir, _ => (Raise (OSError EISDIR (Some name)), w)
  | None, R => (Raise (OSError ENOENT (Some name)), w)
  | None, W =>
      (Ok (Handle name W),
       set_fs <[name := Reg (File true true (Text []))]> w)
  | Some (Reg f), R =>
      if readable f then (Ok (Handle name R), w)
      else (Raise (OSError EACCES (Some name)), w)
  | Some (Reg f), W =>
      if writable f
      then (Ok (Handle name W), set_fs <[name := Reg (set_data (Text []) f)]> w)
      else (Raise (OSError EACCES (Some name)), w)
  end.

(** [f.read()]: the whole text. *)
Definition read (h : handle) : io str := λ w,
  match h_mode h, fs w !! h_name h with
  | W, _ => (Raise UnsupportedOperation, w)
  | R, Some (Reg f) =>
      match data f with
      | Text s => (Ok s, w)
      | Undecodable => (Raise UnicodeDecodeError, w)
      end
  | R, _ => (Raise (OSError EBADF None), w)
  end.

(** [f.write(s)]: appends [s] at the end of the file and returns the number
    of characters written. When the device has no room for all of it, what
    fits is stored and the call raises. (The model does not buffer: the error
    that Python raises when the buffer is flushed, at the latest on [close],
    is raised here.) *)
Definition write (h : handle) (s : str) : io nat := λ w,
  match h_mode h, fs w !! h_name h with
  | R, _ => (Raise UnsupportedOperation, w)
  | W, Some (Reg f) =>
      let old := match data f with Text t => t | Undecodable => [] end in
      let all := old ++ s in
      if has_room w all
      then (Ok (length s), set_fs <[h_name h := Reg (set_data (Text all) f)]> w)
      else (Raise (OSError ENOSPC None),
            set_fs <[h_name h :=
                       Reg (set_data (Text (take (default 0 (room w)) all)) f)]> w)
  | W, _ => (Raise (OSError EBADF None), w)
  end.

Definition close (h : handle) : io unit := λ w, (Ok (), w).

(** [with open(name, m) as f: body]: the file is closed on every way out of
    the body, and an exception of the body goes on. *)
Definition with_open {X} (name : string) (m : mode) (body : handle → io X) : io X :=
  λ w,
  match open name m w with
  | (Raise e, w1) => (Raise e, w1)
  | (Ok f, w1) =>
      let '(r, w2) := body f w1 in
      match close f w2 with
      | (Ok _, w3) => (r, w3)
      | (Raise e, w3) => (Raise e, w3)
      end
  end.

(** [print(s)] *)
Definition print (s : string) : io unit := λ w,
  (Ok (), World (fs w) (room w) (stdout w +:+ s +:+ lf) (stderr w)).

(** ** The script *)

Definition path : string := "web/index.html".

Definition insert_setup : io unit :=
  content ← with_open path R (λ f, read f);
  let content := replace content marker (setup_html ++ marker) 1 in
  _ ← with_open path W (λ f, write f content);
  print "Setup wizard HTML inserted successfully".

(** The script under the interpreter: status 0 when the script runs to its
    end, and for an uncaught exception the traceback on the error stream and
    status 1. The output stream is taken to accept what is printed; what
    happens at shutdown when it does not is [process] below. *)
Record outcome := Outcome { status : Z; final : world }.

Definition report (e : exn) (w : world) : world :=
  World (fs w) (room w) (stdout w) (stderr w +:+ traceback e).

Definition python (prog : io unit) (w : world) : outcome :=
  match prog w with
  | (Ok _, w') => Outcome 0 w'
  | (Raise e, w') => Outcome 1 (report e w')
  end.

Definition main (w : world) : outcome := python insert_setup w.

(** A store with the page in it, for the examples. *)
Definition page (r w : bool) (b : body) (n : option nat) : world :=
  World {[ path := Reg (File r w b) ]} n EmptyString EmptyString.

(** The world after a run that went through, and after one whose write ran
    out of room, for a page [f] that held the text [C]. *)
Definition completed (w : world) (f : file) (C : str) : world :=
  World (<[path := Reg (set_data (Text (splice C)) f)]> (fs w))
        (room w)
        (stdout w +:+ "Setup wizard HTML inserted successfully" +:+ lf)
        (stderr w).

Definition cut_short (w : world) (f : file) (C : str) : world :=
  set_fs <[path := Reg (set_data (Text (take (default 0 (room w)) (splice C))) f)]> w.

(** Texts for the examples: one marker, two markers, none. *)
Definition sample (pre post : string) : str :=
  lit pre ++ newline ++ marker ++ newline ++ lit post.

Definition one_marker : str := sample "X" "Y".
Definition two_markers : str := sample "X" "Y" ++ newline ++ marker ++ lit "Z".
Definition no_marker : str := lit "no marker here".

(** A world that differs from [page true true (Text one_marker) None] in
    everything but the text of the page. *)
Definition busy_world : world :=
  World (<["web/app.js" := Reg (File true false Undecodable)]>
           {[ path := Reg (File true true (Text one_marker)) ]})
        (Some 4096) "earlier output" "earlier warning".

(** ** A check that the block keeps clear of the marker

    [isolating old blk] holds when no occurrence of [old] in a text around
    [blk] can share a character with [blk]: the last character of [blk] is
    not one of [old], [old] does not occur in [blk], and no proper end of
    [old] is a beginning of [blk]. *)
Definition isolating {A} `{EqDecision A} (old blk : list A) : bool :=
  match last blk with
  | Some c => bool_decide (c ∉ old)
  | None => false
  end
  && bool_decide (find blk old = None)
  && forallb (λ t, negb (startswith blk (drop t old))) (seq 1 (length old - 1)).

(** [isolated old blk]: wherever [blk] stands in a text, every occurrence of
    [old] in that text lies wholly before it or wholly after it. *)
Definition isolated {A} `{EqDecision A} (old blk : list A) : Prop :=
  ∀ x y k,
    startswith (drop k (x ++ blk ++ y)) old = true →
    k + length old ≤ length x ∨ length x + length blk ≤ k.

(** ** The text layer of [open]

    The script opens the page with the default [newline=None]. On reading,
    every CR LF and every lone CR of the file comes out of [f.read()] as one
    LF; on writing, every LF goes to the file as [os.linesep]. The store
    above keeps the text on the script's side of this layer; the two
    functions below relate it to the characters of the file itself (the
    codec, which takes bytes to characters and back, is one to one on the
    files it accepts and is left out). *)

Definition CR : N := 13.
Definition LF : N := 10.

(** What [f.read()] returns for a file with the characters [s]. *)
Fixpoint universal_newlines (s : str) : str :=
  match s with
  | [] => []
  | c :: rest =>
      if (c =? CR)%N then
        LF :: match rest with
              | d :: rest' =>
                  if (d =? LF)%N then universal_newlines rest'
                  else universal_newlines rest
              | [] => []
              end
      else c :: universal_newlines rest
  end.

(** What [f.write(s)] puts into the file. *)
Definition write_newlines (linesep s : str) : str :=
  s ≫= λ c, if (c =? LF)%N then linesep else [c].

(** [os.linesep] where the script's [#!/usr/bin/env python3] line applies. *)
Definition posix_linesep : str := [LF].

(** The characters of a page whose first line ends in CR LF. *)
Definition crlf_page : str := lit "a" ++ [CR; LF] ++ marker.

(** ** The end of the process

    [print] leaves its line in the buffer of the output stream, and the
    interpreter writes the buffer out when it shuts down. When the stream
    refuses it, nothing of the line gets out, the interpreter puts a notice
    on the error stream, and the status of the process is 120. *)

Inductive sink :=
  | Takes
  | Refuses (notice : string).

Definition shutdown (k : sink) (w : world) (o : outcome) : outcome :=
  match k with
  | Takes => o
  | Refuses notice =>
      if bool_decide (stdout (final o) = stdout w) then o
      else Outcome 120 (World (fs (final o)) (room (final o)) (stdout w)
                              (stderr (final o) +:+ notice))
  end.

Definition process (k : sink) (w : world) : outcome := shutdown k w (main w).

(** The error stream went from [before] to [after] by a report of the
    interpreter that ends with [line]; [frames] stands for the lines in
    between. *)
Definition reports (before after line : string) : Prop :=
  ∃ frames,
    after = before +:+ "Traceback (most recent call last):" +:+ lf
              +:+ frames +:+ line +:+ lf.

(** * Facts about the [str] operations *)

Section str_facts.
Context {A : Type} `{EqDecision A}.
Implicit Types s sub old new blk x y : list A.

(** An occurrence of [sub] at index [k] of [s], read character by
    character. *)
Lemma startswith_lookup s sub :
  startswith s sub = true ↔ ∀ j c, sub !! j = Some c → s !! j = Some c.
Proof.
  revert s. induction sub as [|b sub IH]; intros s; simpl.
  - split; [intros _ j c Hj; by rewrite lookup_nil in Hj | done].
  - destruct s as [|a s].
    + split; [done | intros Hs]. by specialize (Hs 0 b eq_refl).
    + rewrite andb_true_iff, bool_decide_eq_true, IH. split.
      * intros [-> Hs] [|j] c Hj; simpl in *; [done | by apply Hs].
      * intros Hs. split.
        -- specialize (Hs 0 b eq_refl). by injection Hs.
        -- intros j c Hj. by apply (Hs (S j)).
Qed.

Lemma occurs_lookup s sub k :
  startswith (drop k s) sub = true ↔
  ∀ j c, sub !! j = Some c → s !! (k + j) = Some c.
Proof.
  rewrite startswith_lookup. by setoid_rewrite lookup_drop.
Qed.

Lemma startswith_app sub r : startswith (sub ++ r) sub = true.
Proof.
  apply startswith_lookup. intros j c Hj. by apply lookup_app_l_Some.
Qed.

Lemma startswith_split s sub :
  startswith s sub = true → s = sub ++ drop (length sub) s.
Proof.
  revert s. induction sub as [|b sub IH]; intros [|a s]; simpl; try done.
  rewrite andb_true_iff, bool_decide_eq_true. intros [-> Hs].
  f_equal. by apply IH.
Qed.

(** [find] returns the least index at which [sub] occurs. *)
Lemma find_Some s sub i :
  find s sub = Some i ↔
  i ≤ length s ∧ startswith (drop i s) sub = true ∧
  ∀ j, j < i → startswith (drop j s) sub = false.
Proof.
  revert i. induction s as [|a s IH]; intros i.
  - simpl. destruct (startswith [] sub) eqn:E.
    + split.
      * intros [= <-]. simpl. split_and!; [done | done | lia].
      * intros (Hi & _ & _). simpl in Hi. f_equal. lia.
    + split; [done |]. intros (Hi & Hs & _). simpl in Hi.
      assert (i = 0) as -> by lia. simpl in Hs. congruence.
  - cbn [find]. destruct (startswith (a :: s) sub) eqn:E.
    + split.
      * intros [= <-]. simpl. split_and!; [lia | done | lia].
      * intros (_ & _ & Hmin). destruct i as [|i]; [done |].
        specialize (Hmin 0 ltac:(lia)). simpl in Hmin. congruence.
    + destruct i as [|i].
      * split.
        -- destruct (find s sub); done.
        -- intros (_ & Hs & _). simpl in Hs. congruence.
      * rewrite fmap_Some. split.
        -- intros (i' & Hf & [= ->]). apply IH in Hf as (Hi & Hs & Hmin).
           simpl. split_and!; [lia | done |].
           intros [|j] Hj; [done |]. simpl. apply Hmin. lia.
        -- intros (Hi & Hs & Hmin). exists i. split; [| done].
           apply IH. simpl in Hi, Hs. split_and!; [lia | done |].
           intros j Hj. apply (Hmin (S j)). lia.
Qed.

Lemma find_None s sub :
  find s sub = None ↔ ∀ j, startswith (drop j s) sub = false.
Proof.
  induction s as [|a s IH].
  - simpl. destruct (startswith [] sub) eqn:E.
    + split; [done |]. intros Hs. specialize (Hs 0). simpl in Hs. congruence.
    + split; [| done]. intros _ j. by rewrite drop_nil.
  - cbn [find]. destruct (startswith (a :: s) sub) eqn:E.
    + split; [done |]. intros Hs. specialize (Hs 0). simpl in Hs. congruence.
    + rewrite fmap_None, IH. split.
      * intros Hs [|j]; [done | apply Hs].
      * intros Hs j. apply (Hs (S j)).
Qed.

(** The text splits around the occurrence [find] returns. *)
Lemma find_split s sub i :
  find s sub = Some i →
  s = take i s ++ sub ++ drop (i + length sub) s.
Proof.
  intros (_ & Hs & _)%find_Some.
  apply startswith_split in Hs. rewrite drop_drop in Hs.
  rewrite <- Hs. by rewrite take_drop.
Qed.

(** With a count of one, [replace] rewrites the occurrence that [find]
    returns and nothing else. *)
Lemma replace_once s old new :
  replace s old new 1 =
    match find s old with
    | Some i => take i s ++ new ++ drop (i + length old) s
    | None => s
    end.
Proof.
  unfold replace. change (Z.to_nat 1) with 1. cbn [Z.ltb Z.compare].
  destruct old as [|b old]; [| done].
  destruct s as [|a s]; simpl; by rewrite ?app_nil_r.
Qed.

Lemma replace_absent s old new count :
  old ≠ [] → find s old = None → replace s old new count = s.
Proof.
  intros Hold Hf. unfold replace. destruct old as [|b old]; [done |].
  destruct (if (count <? 0)%Z then _ else _) as [|n]; [done |].
  simpl replace_upto. by rewrite Hf.
Qed.

(** Replacing [old] by [blk ++ old] once puts [blk] in front of the first
    occurrence and keeps the text on both sides. *)
Lemma insert_before s old blk i :
  find s old = Some i →
  replace s old (blk ++ old) 1 = take i s ++ blk ++ drop i s.
Proof.
  intros Hf. rewrite replace_once, Hf.
  rewrite <- (app_assoc blk). do 2 f_equal.
  pose proof (find_split _ _ _ Hf) as Hs.
  apply find_Some in Hf as (Hi & _ & _).
  rewrite Hs at 2.
  rewrite drop_app_length'; [done |]. rewrite length_take. lia.
Qed.

(** Nothing before the first occurrence holds an occurrence. *)
Lemma find_take_None s sub i :
  sub ≠ [] → find s sub = Some i → find (take i s) sub = None.
Proof.
  intros Hsub (Hi & _ & Hmin)%find_Some. apply find_None. intros j.
  destruct (startswith (drop j (take i s)) sub) eqn:E; [exfalso | done].
  rewrite occurs_lookup in E.
  destruct sub as [|b sub]; [done |].
  pose proof (E 0 b eq_refl) as H0%lookup_take_Some.
  enough (startswith (drop j s) (b :: sub) = true) as Hocc
    by (rewrite Hmin in Hocc; [done | lia]).
  apply occurs_lookup. intros k c Hk.
  by apply E, lookup_take_Some in Hk as [? _].
Qed.

(** An occurrence that is spelled out is found by [startswith]. *)
Lemma occurs_app x sub y : startswith (drop (length x) (x ++ sub ++ y)) sub = true.
Proof. rewrite drop_app_length. apply startswith_app. Qed.

(** *** Counting occurrences *)

Lemma occurrences_0 s sub : occurrences s sub = 0 ↔ find s sub = None.
Proof.
  induction s as [|a s IH]; cbn [occurrences find].
  - destruct (startswith [] sub); split; (done || lia).
  - destruct (startswith (a :: s) sub).
    + split; (done || lia).
    + by rewrite fmap_None.
Qed.

Lemma occurs_occurrences s sub k :
  startswith (drop k s) sub = true → 1 ≤ occurrences s sub.
Proof.
  intros Hk. destruct (occurrences s sub) eqn:E; [| lia].
  apply occurrences_0 in E. rewrite find_None in E.
  specialize (E k). congruence.
Qed.

Lemma occurrences_two s sub j k :
  j < k → k ≤ length s →
  startswith (drop j s) sub = true → startswith (drop k s) sub = true →
  2 ≤ occurrences s sub.
Proof.
  revert j k. induction s as [|a s IH]; intros j k Hjk Hk Hj Hkk;
    simpl in Hk; [lia |].
  destruct k as [|k]; [lia |]. cbn [occurrences]. simpl in Hkk.
  destruct j as [|j]; simpl in Hj.
  - rewrite Hj. pose proof (occurs_occurrences s sub k Hkk). lia.
  - pose proof (IH j k ltac:(lia) ltac:(lia) Hj Hkk). lia.
Qed.

Lemma occurrences_1_unique s sub j k :
  occurrences s sub = 1 → j ≤ length s → k ≤ length s →
  startswith (drop j s) sub = true → startswith (drop k s) sub = true →
  j = k.
Proof.
  intros H1 Hj Hk Hoj Hok.
  destruct (Nat.lt_trichotomy j k) as [Hlt | [-> | Hlt]]; [| done |].
  - pose proof (occurrences_two s sub j k Hlt Hk Hoj Hok). lia.
  - pose proof (occurrences_two s sub k j Hlt Hj Hok Hoj). lia.
Qed.

(** A stretch in which [sub] never starts does not count. *)
Lemma occurrences_skip x y sub :
  (∀ k, k < length x → startswith (drop k (x ++ y)) sub = false) →
  occurrences (x ++ y) sub = occurrences y sub.
Proof.
  induction x as [|a x IH]; intros Hk; [done |].
  pose proof (Hk 0 ltac:(simpl; lia)) as H0. simpl in H0.
  simpl. rewrite H0. simpl. apply IH.
  intros k Hlt. apply (Hk (S k)). simpl. lia.
Qed.

(** *** A block that keeps clear of the marker *)

Lemma isolating_sound old blk : isolating old blk = true → isolated old blk.
Proof.
  unfold isolating, isolated.
  rewrite !andb_true_iff. intros [[Hlast Hin] Hends] x y k Hocc.
  destruct (last blk) as [c|] eqn:Hc; [| done].
  apply bool_decide_eq_true in Hlast, Hin.
  rewrite forallb_forall in Hends. rewrite occurs_lookup in Hocc.
  rewrite last_lookup in Hc. pose proof (lookup_lt_Some _ _ _ Hc) as Hlen.
  destruct (decide (k + length old ≤ length x)) as [|Hn1]; [by left |].
  destruct (decide (length x + length blk ≤ k)) as [|Hn2]; [by right |].
  exfalso.
  destruct (decide (length x + length blk ≤ k + length old)) as [Hcov|Hshort].
  - (* the occurrence would cover the last character of the block *)
    destruct (lookup_lt_is_Some_2 old (length x + length blk - 1 - k))
      as [m Hm]; [lia |].
    specialize (Hocc _ _ Hm).
    replace (k + (length x + length blk - 1 - k))
      with (length x + pred (length blk)) in Hocc by lia.
    rewrite lookup_app_r in Hocc by lia.
    rewrite lookup_app_l in Hocc by lia.
    replace (length x + pred (length blk) - length x)
      with (pred (length blk)) in Hocc by lia.
    assert (m = c) as -> by congruence.
    apply Hlast. by eapply list_elem_of_lookup_2.
  - destruct (decide (length x ≤ k)) as [Hafter|Hbefore].
    + (* the occurrence would lie inside the block *)
      rewrite find_None in Hin. specialize (Hin (k - length x)).
      enough (startswith (drop (k - length x) blk) old = true) by congruence.
      apply occurs_lookup. intros j m Hm.
      pose proof (lookup_lt_Some _ _ _ Hm).
      specialize (Hocc _ _ Hm).
      rewrite lookup_app_r in Hocc by lia.
      rewrite lookup_app_l in Hocc by lia.
      by replace (k - length x + j) with (k + j - length x) by lia.
    + (* an end of the marker would begin the block *)
      specialize (Hends (length x - k)).
      rewrite in_seq, negb_true_iff in Hends.
      enough (startswith blk (drop (length x - k) old) = true) as Hpre
        by (rewrite Hends in Hpre; [done | lia]).
      apply startswith_lookup. intros j m Hm. rewrite lookup_drop in Hm.
      pose proof (lookup_lt_Some _ _ _ Hm).
      specialize (Hocc _ _ Hm).
      replace (k + (length x - k + j)) with (length x + j) in Hocc by lia.
      rewrite lookup_app_r in Hocc by lia.
      rewrite lookup_app_l in Hocc by lia.
      by replace (length x + j - length x) with j in Hocc by lia.
Qed.

Section insertion.
Variables old blk : list A.
Hypothesis old_nonempty : old ≠ [].
Hypothesis clear : isolated old blk.

Variables (s : list A) (i : nat).
Hypothesis first : find s old = Some i.

(** After the insertion [old] does not start anywhere before the place
    where it first started, moved by the length of the block. *)
Lemma no_early k :
  k < i + length blk →
  startswith (drop k (take i s ++ blk ++ drop i s)) old = false.
Proof using old_nonempty clear first.
  intros Hk. apply find_Some in first as (Hi & Hs & Hmin).
  destruct (startswith (drop k _) old) eqn:E; [exfalso | done].
  assert (0 < length old) by (destruct old; [done | simpl; lia]).
  destruct (clear _ _ _ E) as [Hl|Hr]; rewrite length_take in *; [| lia].
  enough (startswith (drop k s) old = true) as Hocc
    by (rewrite Hmin in Hocc; [done | lia]).
  rewrite occurs_lookup in E. apply occurs_lookup. intros j c Hj.
  pose proof (lookup_lt_Some _ _ _ Hj).
  specialize (E _ _ Hj).
  rewrite lookup_app_l in E by (rewrite length_take; lia).
  by rewrite lookup_take_lt in E by lia.
Qed.

Lemma find_after_insert :
  find (take i s ++ blk ++ drop i s) old = Some (i + length blk).
Proof using old_nonempty clear first.
  pose proof first as (Hi & Hs & Hmin)%find_Some.
  apply find_Some. split_and!.
  - rewrite !length_app, length_take, length_drop. lia.
  - rewrite app_assoc, drop_app_length'; [done |].
    rewrite length_app, length_take. lia.
  - apply no_early.
Qed.

Lemma occurrences_insert :
  occurrences (take i s ++ blk ++ drop i s) old = occurrences s old.
Proof using old_nonempty clear first.
  pose proof first as (Hi & Hs & Hmin)%find_Some.
  transitivity (occurrences (drop i s) old).
  - rewrite app_assoc. apply occurrences_skip. intros k Hk.
    rewrite <- app_assoc. apply no_early.
    rewrite length_app, length_take in Hk. lia.
  - symmetry. rewrite <- (take_drop i s) at 1.
    apply occurrences_skip. intros k Hk. rewrite take_drop.
    apply Hmin. rewrite length_take in Hk. lia.
Qed.

(** A second insertion lands right behind the first. *)
Lemma insert_twice :
  replace (replace s old (blk ++ old) 1) old (blk ++ old) 1 =
    take i s ++ blk ++ blk ++ drop i s.
Proof using old_nonempty clear first.
  pose proof first as (Hi & _ & _)%find_Some.
  rewrite (insert_before s old blk i first).
  rewrite (insert_before _ old blk _ find_after_insert).
  rewrite (app_assoc (take i s)).
  rewrite take_app_length', drop_app_length';
    [| rewrite length_app, length_take; lia ..].
  by rewrite <- app_assoc.
Qed.

End insertion.

End str_facts.
(** * Facts about the built-ins *)

Lemma with_open_read name w :
  with_open name R read w =
    match fs w !! name with
    | None => (Raise (OSError ENOENT (Some name)), w)
    | Some Dir => (Raise (OSError EISDIR (Some name)), w)
    | Some (Reg f) =>
        if readable f
        then match data f with
             | Text s => (Ok s, w)
             | Undecodable => (Raise UnicodeDecodeError, w)
             end
        else (Raise (OSError EACCES (Some name)), w)
    end.
Proof.
  unfold with_open, open, read, close.
  destruct (fs w !! name) as [[|f]|] eqn:E; [done | | done].
  destruct (readable f); [| done]. simpl. rewrite E.
  by destruct (data f).
Qed.

Lemma with_open_write name s w :
  with_open name W (λ f, write f s) w =
    let store b f' := set_fs <[name := Reg (set_data (Text b) f')]> w in
    let attempt f' :=
      if has_room w s then (Ok (length s), store s f')
      else (Raise (OSError ENOSPC None), store (take (default 0 (room w)) s) f') in
    match fs w !! name with
    | None => attempt (File true true (Text []))
    | Some Dir => (Raise (OSError EISDIR (Some name)), w)
    | Some (Reg f) =>
        if writable f then attempt f
        else (Raise (OSError EACCES (Some name)), w)
    end.
Proof.
  assert (∀ f,
    (let '(r, w2) := write (Handle name W) s
                       (set_fs <[name := Reg (set_data (Text []) f)]> w) in
     match close (Handle name W) w2 with
     | (Ok _, w3) => (r, w3)
     | (Raise e, w3) => (Raise e, w3)
     end) =
    if has_room w s
    then (Ok (length s), set_fs <[name := Reg (set_data (Text s) f)]> w)
    else (Raise (OSError ENOSPC None),
          set_fs <[name := Reg (set_data (Text (take (default 0 (room w)) s)) f)]> w))
    as Hwrite.
  { intros f. unfold write, close, set_fs, has_room. simpl.
    rewrite lookup_insert_eq. simpl.
    destruct (room w) as [n|]; simpl; [destruct (bool_decide _) |];
      by rewrite insert_insert_eq. }
  unfold with_open, open.
  destruct (fs w !! name) as [[|f]|] eqn:E; [done | |].
  - destruct (writable f); [| done]. apply Hwrite.
  - apply (Hwrite (File true true (Text []))).
Qed.

(** * Facts about the script *)

Lemma insert_setup_splice :
  insert_setup =
    (content ← with_open path R read;
     _ ← with_open path W (λ f, write f (splice content));
     print "Setup wizard HTML inserted successfully").
Proof. reflexivity. Qed.

(** Every way the script can go, read off the state of the store. *)
Lemma insert_setup_cases w :
  insert_setup w =
    match fs w !! path with
    | None => (Raise (OSError ENOENT (Some path)), w)
    | Some Dir => (Raise (OSError EISDIR (Some path)), w)
    | Some (Reg f) =>
        if readable f then
          match data f with
          | Undecodable => (Raise UnicodeDecodeError, w)
          | Text C =>
              if writable f then
                if has_room w (splice C) then (Ok (), completed w f C)
                else (Raise (OSError ENOSPC None), cut_short w f C)
              else (Raise (OSError EACCES (Some path)), w)
          end
        else (Raise (OSError EACCES (Some path)), w)
    end.
Proof.
  rewrite insert_setup_splice. unfold mbind, io_bind.
  rewrite with_open_read.
  destruct (fs w !! path) as [[|f]|] eqn:E; [done | | done].
  destruct (readable f); [| done].
  destruct (data f) as [C|]; [| done].
  rewrite with_open_write, E. cbv zeta.
  destruct (writable f); [| done].
  by destruct (has_room w (splice C)).
Qed.

Lemma main_ok w f C :
  fs w !! path = Some (Reg f) →
  readable f = true → writable f = true → data f = Text C →
  has_room w (splice C) = true →
  main w = Outcome 0 (completed w f C).
Proof.
  intros Hf Hr Hw Hd Hroom. unfold main, python.
  by rewrite insert_setup_cases, Hf, Hr, Hd, Hw, Hroom.
Qed.

Lemma main_ok_inv w :
  status (main w) = 0%Z →
  ∃ f C,
    fs w !! path = Some (Reg f) ∧
    readable f = true ∧ writable f = true ∧ data f = Text C ∧
    has_room w (splice C) = true.
Proof.
  unfold main, python. rewrite insert_setup_cases.
  destruct (fs w !! path) as [[|f]|]; [done | | done].
  destruct (readable f) eqn:Hr; [| done].
  destruct (data f) as [C|] eqn:Hd; [| done].
  destruct (writable f) eqn:Hw; [| done].
  destruct (has_room w (splice C)) eqn:Hroom; [| done].
  intros _. by exists f, C.
Qed.

Lemma text_at_Some w name s :
  text_at w name = Some s ↔
  ∃ f, fs w !! name = Some (Reg f) ∧ data f = Text s.
Proof.
  unfold text_at. destruct (fs w !! name) as [[|f]|].
  - split; [done | by intros (? & ? & ?)].
  - destruct (data f) as [t|] eqn:E.
    + split; [intros [= ->]; by exists f |].
      intros (f' & [= <-] & Hd). congruence.
    + split; [done |]. intros (f' & [= <-] & Hd). congruence.
  - split; [done | by intros (? & ? & ?)].
Qed.

Lemma text_at_completed w f C : text_at (completed w f C) path = Some (splice C).
Proof.
  unfold text_at, completed. simpl. by rewrite lookup_insert_eq.
Qed.

(** A run that ends with status 0 leaves [splice] of the text it found. *)
Lemma main_text w C :
  text_at w path = Some C → status (main w) = 0%Z →
  main w = Outcome 0 (World (<[path := Reg (File true true (Text (splice C)))]> (fs w))
                            (room w)
                            (stdout w +:+ "Setup wizard HTML inserted successfully" +:+ lf)
                            (stderr w))
  ∧ text_at (final (main w)) path = Some (splice C).
Proof.
  intros (f & Hf & Hd)%text_at_Some (f' & C' & Hf' & Hr & Hw & Hd' & Hroom)%main_ok_inv.
  assert (f' = f) as -> by congruence.
  assert (C' = C) as -> by congruence.
  rewrite (main_ok w f C) by done. split; [| apply text_at_completed].
  unfold completed, set_data. by rewrite Hr, Hw.
Qed.

(** The literals. *)
Lemma marker_nonempty : marker ≠ [].
Proof. done. Qed.

Lemma marker_isolated : isolated marker setup_html.
Proof. apply isolating_sound. by vm_compute. Qed.

Lemma setup_html_length : length setup_html = 1928.
Proof. by vm_compute. Qed.

Lemma setup_html_no_marker : find setup_html marker = None.
Proof. by vm_compute. Qed.

Lemma splice_found C i :
  find C marker = Some i → splice C = take i C ++ setup_html ++ drop i C.
Proof. apply insert_before. Qed.

Lemma splice_absent C : find C marker = None → splice C = C.
Proof. apply replace_absent, marker_nonempty. Qed.

(** * The claims *)

(** Where the text from the first marker on begins in the result. *)
Lemma drop_first_marker C i :
  find C marker = Some i →
  drop i C = marker ++ drop (i + length marker) C.
Proof.
  intros Hf. pose proof (find_split _ _ _ Hf) as Hsplit.
  apply find_Some in Hf as (Hi & _ & _).
  rewrite Hsplit at 1. rewrite drop_app_length'; [done |].
  rewrite length_take. lia.
Qed.

(** C1. When the page holds the marker exactly once, a run that succeeds
    leaves [prefix ++ setup_html ++ marker ++ suffix] in the file, where
    [prefix ++ marker ++ suffix] is the text it found; the marker does not
    occur in [prefix], the marker is kept as it is, and this is the only way
    to split the text around the marker. *)
Theorem single_marker_splice (w : world) (C : str) :
  text_at w path = Some C →
  occurrences C marker = 1 →
  status (main w) = 0%Z →
  ∃ prefix suffix,
    C = prefix ++ marker ++ suffix ∧
    occurrences prefix marker = 0 ∧
    text_at (final (main w)) path
      = Some (prefix ++ setup_html ++ marker ++ suffix) ∧
    ∀ p s, C = p ++ marker ++ s → p = prefix ∧ s = suffix.
Proof.
  intros Ht H1 Hst.
  destruct (find C marker) as [i|] eqn:Hf; [| apply occurrences_0 in Hf; lia].
  pose proof (find_split _ _ _ Hf) as Hsplit.
  pose proof Hf as (Hi & Hocc & _)%find_Some.
  exists (take i C), (drop (i + length marker) C). split_and!.
  - done.
  - apply occurrences_0, find_take_None; [apply marker_nonempty | done].
  - destruct (main_text w C Ht Hst) as [_ ->].
    by rewrite (splice_found C i Hf), (drop_first_marker C i Hf).
  - intros p s HC.
    assert (length p = i) as <-.
    { apply (occurrences_1_unique C marker); [done | | done | | done].
      - rewrite HC, !length_app. lia.
      - rewrite HC. apply occurs_app. }
    rewrite HC. rewrite take_app_length. split; [done |].
    by rewrite app_assoc, drop_app_length' by (rewrite length_app; lia).
Qed.

Lemma single_marker_splice_witness :
  ∃ prefix suffix,
    one_marker = prefix ++ marker ++ suffix ∧
    occurrences prefix marker = 0 ∧
    text_at (final (main (page true true (Text one_marker) None))) path
      = Some (prefix ++ setup_html ++ marker ++ suffix) ∧
    ∀ p s, one_marker = p ++ marker ++ s → p = prefix ∧ s = suffix.
Proof.
  apply (single_marker_splice (page true true (Text one_marker) None) one_marker);
    by vm_compute.
Defined.

(** C2. When the marker occurs more than once, a run that succeeds makes one
    insertion, in front of the first occurrence: the result is the text up to
    the first marker, the block, and the text from the first marker on. The
    result is longer by the block and by nothing else, and from every index
    at or behind the first marker the text, with every later occurrence in
    it, is what it was. *)
Theorem first_marker_only (w : world) (C : str) :
  text_at w path = Some C →
  2 ≤ occurrences C marker →
  status (main w) = 0%Z →
  ∃ i R,
    find C marker = Some i ∧
    text_at (final (main w)) path = Some R ∧
    R = take i C ++ setup_html ++ drop i C ∧
    length R = length C + length setup_html ∧
    take i R = take i C ∧
    ∀ k, i ≤ k → drop (k + length setup_html) R = drop k C.
Proof.
  intros Ht H2 Hst.
  destruct (find C marker) as [i|] eqn:Hf; [| apply occurrences_0 in Hf; lia].
  pose proof Hf as (Hi & _ & _)%find_Some.
  exists i, (take i C ++ setup_html ++ drop i C). split_and!.
  - done.
  - destruct (main_text w C Ht Hst) as [_ ->].
    by rewrite (splice_found C i Hf).
  - done.
  - rewrite !length_app, length_take, length_drop. lia.
  - by rewrite take_app_length' by (rewrite length_take; lia).
  - intros k Hk. rewrite app_assoc.
    rewrite drop_app_ge; rewrite length_app, length_take; [| lia].
    rewrite drop_drop. f_equal. lia.
Qed.

Lemma first_marker_only_witness :
  ∃ i R,
    find two_markers marker = Some i ∧
    text_at (final (main (page true true (Text two_markers) None))) path = Some R ∧
    R = take i two_markers ++ setup_html ++ drop i two_markers ∧
    length R = length two_markers + length setup_html ∧
    take i R = take i two_markers ∧
    ∀ k, i ≤ k → drop (k + length setup_html) R = drop k two_markers.
Proof.
  apply (first_marker_only (page true true (Text two_markers) None) two_markers).
  - by vm_compute.
  - vm_compute. lia.
  - by vm_compute.
Defined.

(** C3. When the marker does not occur, a run that succeeds leaves the text,
    and the whole store, as it found them; and the run does succeed whenever
    the page can be read and written and the device has room for the text:
    the script has no failure of its own for a missing marker. *)
Theorem absent_marker_noop (w : world) (C : str) :
  text_at w path = Some C →
  occurrences C marker = 0 →
  (status (main w) = 0%Z →
   text_at (final (main w)) path = Some C ∧ fs (final (main w)) = fs w) ∧
  (∀ f, fs w !! path = Some (Reg f) →
        readable f = true → writable f = true → has_room w C = true →
        status (main w) = 0%Z).
Proof.
  intros Ht Hnone%occurrences_0. apply splice_absent in Hnone as Hsame. split.
  - intros Hst. destruct (main_text w C Ht Hst) as [Hrun ->].
    split; [by rewrite Hsame |].
    pose proof (main_ok_inv w Hst) as (f & C' & Hf & Hr & Hw & Hd & _).
    apply text_at_Some in Ht as (f' & Hf' & Hd').
    assert (f' = f) as -> by congruence.
    rewrite Hrun, Hsame. simpl. apply insert_id. rewrite Hf. do 2 f_equal.
    destruct f; simpl in *; congruence.
  - intros f Hf Hr Hw Hroom.
    apply text_at_Some in Ht as (f' & Hf' & Hd').
    assert (f' = f) as -> by congruence.
    rewrite (main_ok w f C); [done ..|]. by rewrite Hsame.
Qed.

Lemma absent_marker_noop_witness :
  let w := page true true (Text no_marker) None in
  occurrences no_marker marker = 0 ∧
  status (main w) = 0%Z ∧
  text_at (final (main w)) path = Some no_marker ∧
  fs (final (main w)) = fs w.
Proof.
  destruct (absent_marker_noop (page true true (Text no_marker) None) no_marker)
    as [Hkeep Hruns]; [by vm_compute | by vm_compute |].
  split; [by vm_compute |].
  split; [by apply (Hruns (File true true (Text no_marker))); vm_compute |].
  by apply Hkeep; vm_compute.
Defined.

(** Two runs of line 48 on a text that holds the marker. *)
Lemma splice_twice C i :
  find C marker = Some i →
  splice (splice C) = take i C ++ setup_html ++ setup_html ++ drop i C.
Proof.
  intros Hf.
  exact (insert_twice marker setup_html marker_nonempty marker_isolated C i Hf).
Qed.

(** C4. The block holds no marker, and two runs in a row that both succeed
    on a page that holds the marker leave two copies of the block, one after
    the other, in front of the first marker of the text the first run found;
    that is not what one run leaves. *)
Theorem second_run_doubles_block (w : world) (C : str) (i : nat) :
  text_at w path = Some C →
  find C marker = Some i →
  status (main w) = 0%Z →
  status (main (final (main w))) = 0%Z →
  find setup_html marker = None ∧
  text_at (final (main (final (main w)))) path
    = Some (take i C ++ (setup_html ++ setup_html) ++ drop i C) ∧
  text_at (final (main (final (main w)))) path
    ≠ text_at (final (main w)) path.
Proof.
  intros Ht Hf Hst1 Hst2.
  destruct (main_text w C Ht Hst1) as [_ Ht1].
  destruct (main_text _ _ Ht1 Hst2) as [_ Ht2].
  rewrite Ht2, Ht1, (splice_twice C i Hf), (splice_found C i Hf).
  split_and!; [apply setup_html_no_marker | by rewrite <- app_assoc |].
  intros Heq%(inj Some)%(f_equal length).
  rewrite !length_app, setup_html_length in Heq. lia.
Qed.

Lemma second_run_doubles_block_witness :
  let w := page true true (Text one_marker) None in
  find setup_html marker = None ∧
  text_at (final (main (final (main w)))) path
    = Some (take 2 one_marker ++ (setup_html ++ setup_html) ++ drop 2 one_marker) ∧
  text_at (final (main (final (main w)))) path
    ≠ text_at (final (main w)) path.
Proof.
  apply (second_run_doubles_block (page true true (Text one_marker) None)
           one_marker 2); by vm_compute.
Defined.

(** On the text the script handles: taking the block out of the text a
    successful run leaves, at the index of the first marker, gives back the
    text the run read, and what stands at that index is the block. *)
Lemma removing_block_restores (w : world) (C : str) (i : nat) :
  text_at w path = Some C →
  find C marker = Some i →
  status (main w) = 0%Z →
  ∃ R,
    text_at (final (main w)) path = Some R ∧
    take (length setup_html) (drop i R) = setup_html ∧
    take i R ++ drop (i + length setup_html) R = C.
Proof.
  intros Ht Hf Hst.
  pose proof Hf as (Hi & _ & _)%find_Some.
  assert (length (take i C) = i) as Hlen by (rewrite length_take; lia).
  exists (take i C ++ setup_html ++ drop i C). split_and!.
  - destruct (main_text w C Ht Hst) as [_ ->].
    by rewrite (splice_found C i Hf).
  - rewrite drop_app_length' by done. by rewrite take_app_length.
  - rewrite take_app_length' by done.
    rewrite app_assoc, drop_app_length' by (rewrite length_app; lia).
    apply take_drop.
Qed.

(** ** The text layer *)

Lemma universal_newlines_no_CR (s : str) : CR ∉ universal_newlines s.
Proof.
  remember (length s) as n eqn:Hn. revert s Hn.
  induction n as [n IH] using lt_wf_ind. intros [|c rest] Hn.
  - apply not_elem_of_nil.
  - simpl in Hn. cbn [universal_newlines].
    destruct (c =? CR)%N eqn:Hc.
    + apply not_elem_of_cons. split; [done |].
      destruct rest as [|d rest']; [apply not_elem_of_nil |].
      destruct (d =? LF)%N.
      * apply (IH (length rest')); [simpl in Hn; lia | done].
      * apply (IH (length (d :: rest'))); [lia | done].
    + apply not_elem_of_cons. split.
      * apply N.eqb_neq in Hc. congruence.
      * apply (IH (length rest)); [lia | done].
Qed.

Lemma universal_newlines_id (s : str) : CR ∉ s → universal_newlines s = s.
Proof.
  induction s as [|c rest IH]; [done |].
  intros [Hc Hrest]%not_elem_of_cons. cbn [universal_newlines].
  destruct (c =? CR)%N eqn:E; [apply N.eqb_eq in E; congruence |].
  by rewrite IH.
Qed.

Lemma write_newlines_posix (s : str) : write_newlines posix_linesep s = s.
Proof.
  unfold write_newlines. induction s as [|c rest IH]; [done |].
  rewrite bind_cons, IH. destruct (c =? LF)%N eqn:E; [| done].
  apply N.eqb_eq in E. by subst.
Qed.

(** C5. The file holds the characters [D], so that the run reads
    [universal_newlines D]. Taking the block out of the file a successful
    run leaves, at the index of the first marker, gives back what the run
    read, that is [D] with every CR LF and every lone CR turned into LF; it
    gives back [D] itself exactly when [D] has no CR. *)
Theorem removing_block_restores_translated (w : world) (D : str) (i : nat) :
  text_at w path = Some (universal_newlines D) →
  find (universal_newlines D) marker = Some i →
  status (main w) = 0%Z →
  ∃ T,
    text_at (final (main w)) path = Some T ∧
    let R := write_newlines posix_linesep T in
    take (length setup_html) (drop i R) = setup_html ∧
    take i R ++ drop (i + length setup_html) R = universal_newlines D ∧
    (take i R ++ drop (i + length setup_html) R = D ↔ CR ∉ D).
Proof.
  intros Ht Hf Hst.
  destruct (removing_block_restores w _ i Ht Hf Hst) as (T & HT & Hblk & Hback).
  exists T. split; [done |]. cbv zeta. rewrite write_newlines_posix.
  split_and!; [done | done |]. rewrite Hback. split.
  - intros <-. apply universal_newlines_no_CR.
  - apply universal_newlines_id.
Qed.

Lemma removing_block_restores_translated_witness :
  ∃ T,
    text_at (final (main (page true true (Text one_marker) None))) path = Some T ∧
    let R := write_newlines posix_linesep T in
    take (length setup_html) (drop 2 R) = setup_html ∧
    take 2 R ++ drop (2 + length setup_html) R = universal_newlines one_marker ∧
    (take 2 R ++ drop (2 + length setup_html) R = one_marker ↔ CR ∉ one_marker).
Proof.
  apply (removing_block_restores_translated
           (page true true (Text one_marker) None) one_marker 2); by vm_compute.
Defined.

(** The claim as it is worded fails on a page with a CR LF line end: the run
    succeeds, and no way of cutting the length of the block out of the file
    it leaves gives back the characters the file had. *)
Lemma crlf_page_not_restored :
  let w := page true true (Text (universal_newlines crlf_page)) None in
  find crlf_page marker = Some 3 ∧
  status (main w) = 0%Z ∧
  ∃ T R,
    text_at (final (main w)) path = Some T ∧
    R = write_newlines posix_linesep T ∧
    ∀ j, take j R ++ drop (j + length setup_html) R ≠ crlf_page.
Proof.
  cbv zeta. split; [by vm_compute |]. split; [by vm_compute |].
  exists (lit "a" ++ [LF] ++ setup_html ++ marker),
         (lit "a" ++ [LF] ++ setup_html ++ marker).
  split; [by vm_compute |]. split; [by rewrite write_newlines_posix |].
  intros [|[|j]] Heq.
  - apply (f_equal length) in Heq. vm_compute in Heq. discriminate.
  - apply (f_equal length) in Heq. vm_compute in Heq. discriminate.
  - apply (f_equal (λ l, l !! 1)) in Heq. vm_compute in Heq. discriminate.
Qed.

(** C9. Line 48 keeps the number of occurrences of the marker: the block
    holds none, the marker it is put in front of stays, and no occurrence
    arises across the seams. When the marker occurs, the result is longer
    than the text by the length of the block. *)
Theorem marker_count_invariant (C : str) :
  occurrences (splice C) marker = occurrences C marker ∧
  occurrences setup_html marker = 0 ∧
  (1 ≤ occurrences C marker →
   length (splice C) = length C + length setup_html).
Proof.
  destruct (find C marker) as [i|] eqn:Hf.
  - pose proof Hf as (Hi & _ & _)%find_Some.
    rewrite (splice_found C i Hf). split_and!.
    + exact (occurrences_insert marker setup_html marker_nonempty
               marker_isolated C i Hf).
    + apply occurrences_0, setup_html_no_marker.
    + intros _. rewrite !length_app, length_take, length_drop. lia.
  - rewrite (splice_absent C Hf). split_and!; [done | |].
    + apply occurrences_0, setup_html_no_marker.
    + apply occurrences_0 in Hf. lia.
Qed.

Lemma marker_count_invariant_witness :
  occurrences (splice two_markers) marker = occurrences two_markers marker ∧
  occurrences setup_html marker = 0 ∧
  length (splice two_markers) = length two_markers + length setup_html.
Proof.
  destruct (marker_count_invariant two_markers) as (Hn & Hb & Hlen).
  split_and!; [done | done |]. apply Hlen. vm_compute. lia.
Defined.

(** The script is the read, then the write of [splice] of what was read, then
    the print; the read leaves the world as it is. *)
Lemma with_open_read_same name w r w' :
  with_open name R read w = (r, w') → w' = w.
Proof.
  rewrite with_open_read.
  destruct (fs w !! name) as [[|f]|]; [congruence | | congruence].
  destruct (readable f); [| congruence].
  destruct (data f); congruence.
Qed.

Lemma with_open_write_streams name s w r w' :
  with_open name W (λ f, write f s) w = (r, w') →
  stdout w' = stdout w ∧ stderr w' = stderr w ∧ room w' = room w.
Proof.
  rewrite with_open_write. cbv zeta.
  destruct (fs w !! name) as [[|f]|]; [by intros [= _ <-] | |].
  - destruct (writable f); [| by intros [= _ <-]].
    destruct (has_room w s); by intros [= _ <-].
  - destruct (has_room w s); by intros [= _ <-].
Qed.

Lemma traceback_nonempty e : traceback e ≠ EmptyString.
Proof. done. Qed.

Lemma main_read_fails w e w' :
  with_open path R read w = (Raise e, w') →
  insert_setup w = (Raise e, w) ∧ main w = Outcome 1 (report e w).
Proof.
  intros Hread. pose proof (with_open_read_same _ _ _ _ Hread) as ->.
  unfold main, python. rewrite insert_setup_splice.
  unfold mbind, io_bind. by rewrite Hread.
Qed.

Lemma main_write_fails w C w1 e w2 :
  with_open path R read w = (Ok C, w1) →
  with_open path W (λ f, write f (splice C)) w1 = (Raise e, w2) →
  insert_setup w = (Raise e, w2) ∧ main w = Outcome 1 (report e w2).
Proof.
  intros Hread Hwrite.
  unfold main, python. rewrite insert_setup_splice.
  unfold mbind, io_bind. by rewrite Hread, Hwrite.
Qed.

Lemma main_both_succeed w C w1 n w2 :
  with_open path R read w = (Ok C, w1) →
  with_open path W (λ f, write f (splice C)) w1 = (Ok n, w2) →
  main w = Outcome 0 (World (fs w2) (room w2)
                        (stdout w2 +:+ "Setup wizard HTML inserted successfully" +:+ lf)
                        (stderr w2)).
Proof.
  intros Hread Hwrite.
  unfold main, python. rewrite insert_setup_splice.
  unfold mbind, io_bind. by rewrite Hread, Hwrite.
Qed.

Lemma append_grows (s t : string) : t ≠ EmptyString → s +:+ t ≠ s.
Proof.
  intros Ht. induction s as [|a s IH]; simpl; [done |].
  intros [= Heq]. by apply IH.
Qed.

(** When the output stream takes the line, the process ends as the script
    did. *)
Lemma process_takes w : process Takes w = main w.
Proof. done. Qed.

(** A run that raises has printed nothing, and ends the same whatever the
    output stream would do. *)
Lemma process_raise k w e w' :
  insert_setup w = (Raise e, w') →
  stdout w' = stdout w → stderr w' = stderr w →
  status (process k w) = 1%Z ∧
  stdout (final (process k w)) = stdout w ∧
  stderr (final (process k w)) = stderr w +:+ traceback e.
Proof.
  intros Hrun Hout Herr. unfold process, main, python. rewrite Hrun.
  destruct k as [|notice]; simpl; [by rewrite Hout, Herr |].
  rewrite Hout, bool_decide_eq_true_2 by done. simpl.
  by rewrite Hout, Herr.
Qed.

Lemma string_app_assoc (s t u : string) : s +:+ t +:+ u = (s +:+ t) +:+ u.
Proof.
  induction s as [|a s IH]; [done |].
  change (String a (s +:+ t +:+ u) = String a ((s +:+ t) +:+ u)). by f_equal.
Qed.

Lemma traceback_reports before e :
  reports before (before +:+ traceback e) (class_name e +:+ ": " +:+ describe e).
Proof.
  exists EmptyString. unfold traceback. do 3 f_equal.
  change (EmptyString +:+ ?x) with x. by rewrite <- !string_app_assoc.
Qed.

Lemma insert_setup_streams w e w' :
  insert_setup w = (Raise e, w') → stdout w' = stdout w ∧ stderr w' = stderr w.
Proof.
  rewrite insert_setup_cases.
  destruct (fs w !! path) as [[|f]|]; [by intros [= _ <-] | | by intros [= _ <-]].
  destruct (readable f); [| by intros [= _ <-]].
  destruct (data f) as [C|]; [| by intros [= _ <-]].
  destruct (writable f); [| by intros [= _ <-]].
  destruct (has_room w (splice C)); [done | by intros [= _ <-]].
Qed.

(** C6. The status of the process is 0 when the read and the write go
    through and the output stream takes the success line; when the stream
    refuses the line the status is 120 and nothing is printed. When the read
    fails, or the read goes through and the write fails, the status is 1 and
    the error stream gains a report that begins with the traceback header
    and ends with a line that begins with the class of the exception. For a
    page that is missing, is a directory or may not be opened, that line is
    the operating system's message with the path of the page. *)
Theorem exit_status (k : sink) (w : world) :
  let o := process k w in
  (∀ C w1 n w2,
     with_open path R read w = (Ok C, w1) →
     with_open path W (λ f, write f (splice C)) w1 = (Ok n, w2) →
     match k with
     | Takes => status o = 0%Z ∧ stderr (final o) = stderr w
     | Refuses _ => status o = 120%Z ∧ stdout (final o) = stdout w
     end) ∧
  (∀ e w1,
     with_open path R read w = (Raise e, w1) →
     status o = 1%Z ∧
     ∃ detail,
       reports (stderr w) (stderr (final o))
         (class_name e +:+ ": " +:+ detail)) ∧
  (∀ C w1 e w2,
     with_open path R read w = (Ok C, w1) →
     with_open path W (λ f, write f (splice C)) w1 = (Raise e, w2) →
     status o = 1%Z ∧
     ∃ detail,
       reports (stderr w) (stderr (final o))
         (class_name e +:+ ": " +:+ detail)) ∧
  (fs w !! path = None →
   status o = 1%Z ∧
   reports (stderr w) (stderr (final o))
     "FileNotFoundError: [Errno 2] No such file or directory: 'web/index.html'") ∧
  (fs w !! path = Some Dir →
   status o = 1%Z ∧
   reports (stderr w) (stderr (final o))
     "IsADirectoryError: [Errno 21] Is a directory: 'web/index.html'") ∧
  (∀ f, fs w !! path = Some (Reg f) →
        readable f = false ∨
        (readable f = true ∧ (∃ C, data f = Text C) ∧ writable f = false) →
        status o = 1%Z ∧
        reports (stderr w) (stderr (final o))
          "PermissionError: [Errno 13] Permission denied: 'web/index.html'") ∧
  (∀ f C, fs w !! path = Some (Reg f) →
          readable f = true → data f = Text C → writable f = true →
          has_room w (splice C) = false →
          status o = 1%Z ∧
          ∃ detail,
            reports (stderr w) (stderr (final o)) ("OSError: " +:+ detail)) ∧
  (∀ f, fs w !! path = Some (Reg f) →
        readable f = true → data f = Undecodable →
        status o = 1%Z ∧
        ∃ detail,
          reports (stderr w) (stderr (final o))
            ("UnicodeDecodeError: " +:+ detail)).
Proof.
  assert (∀ e w', insert_setup w = (Raise e, w') →
            status (process k w) = 1%Z ∧
            reports (stderr w) (stderr (final (process k w)))
              (class_name e +:+ ": " +:+ describe e)) as Hraise.
  { intros e w' Hrun.
    destruct (insert_setup_streams w e w' Hrun) as [Hout Herr].
    destruct (process_raise k w e w' Hrun Hout Herr) as (-> & _ & ->).
    split; [done | apply traceback_reports]. }
  cbv zeta. split_and!.
  - intros C w1 n w2 Hread Hwrite. unfold process.
    rewrite (main_both_succeed w C w1 n w2 Hread Hwrite).
    apply with_open_read_same in Hread as ->.
    apply with_open_write_streams in Hwrite as (Hout & Herr & _).
    destruct k as [|notice]; simpl; [done |].
    rewrite bool_decide_eq_false_2; [done |].
    rewrite Hout. by apply append_grows.
  - intros e w1 Hread.
    destruct (main_read_fails w e w1 Hread) as [Hrun _].
    destruct (Hraise e w Hrun) as [Hst Hrep]. eauto.
  - intros C w1 e w2 Hread Hwrite.
    destruct (main_write_fails w C w1 e w2 Hread Hwrite) as [Hrun _].
    destruct (Hraise e w2 Hrun) as [Hst Hrep]. eauto.
  - intros Hf. apply (Hraise (OSError ENOENT (Some path)) w).
    by rewrite insert_setup_cases, Hf.
  - intros Hf. apply (Hraise (OSError EISDIR (Some path)) w).
    by rewrite insert_setup_cases, Hf.
  - intros f Hf Hcase. apply (Hraise (OSError EACCES (Some path)) w).
    rewrite insert_setup_cases, Hf.
    destruct Hcase as [-> | (-> & [C ->] & ->)]; done.
  - intros f C Hf Hr Hd Hw Hroom.
    destruct (Hraise (OSError ENOSPC None) (cut_short w f C)) as [Hst Hrep];
      [by rewrite insert_setup_cases, Hf, Hr, Hd, Hw, Hroom |].
    split; [done |]. by exists (describe (OSError ENOSPC None)).
  - intros f Hf Hr Hd.
    destruct (Hraise UnicodeDecodeError w) as [Hst Hrep];
      [by rewrite insert_setup_cases, Hf, Hr, Hd |].
    split; [done |]. by exists (describe UnicodeDecodeError).
Qed.

Lemma exit_status_witness :
  (status (process Takes (page true true (Text one_marker) None)) = 0%Z ∧
   stderr (final (process Takes (page true true (Text one_marker) None)))
     = EmptyString) ∧
  (status (process (Refuses "Exception ignored")
             (page true true (Text one_marker) None)) = 120%Z ∧
   stdout (final (process (Refuses "Exception ignored")
                    (page true true (Text one_marker) None))) = EmptyString) ∧
  (status (process (Refuses "Exception ignored")
             (World ∅ None EmptyString EmptyString)) = 1%Z ∧
   reports EmptyString
     (stderr (final (process (Refuses "Exception ignored")
                       (World ∅ None EmptyString EmptyString))))
     "FileNotFoundError: [Errno 2] No such file or directory: 'web/index.html'").
Proof.
  split; [| split].
  - destruct (exit_status Takes (page true true (Text one_marker) None))
      as (Hok & _).
    apply (Hok one_marker (page true true (Text one_marker) None)
             (length (splice one_marker))
             (page true true (Text (splice one_marker)) None)); by vm_compute.
  - destruct (exit_status (Refuses "Exception ignored")
                (page true true (Text one_marker) None)) as (Hok & _).
    apply (Hok one_marker (page true true (Text one_marker) None)
             (length (splice one_marker))
             (page true true (Text (splice one_marker)) None)); by vm_compute.
  - destruct (exit_status (Refuses "Exception ignored")
                (World ∅ None EmptyString EmptyString))
      as (_ & _ & _ & Hmissing & _).
    apply Hmissing. by vm_compute.
Defined.

(** C7. When the page can be read but is not writable, the read goes through,
    the open for writing is refused with a permission error, the run ends
    with status 1, and the store, the page in it included, is what it was
    before the run. *)
Theorem readonly_page_untouched (w : world) (f : file) (C : str) :
  fs w !! path = Some (Reg f) →
  readable f = true → data f = Text C → writable f = false →
  with_open path R read w = (Ok C, w) ∧
  insert_setup w = (Raise (OSError EACCES (Some path)), w) ∧
  class_name (OSError EACCES (Some path)) = "PermissionError" ∧
  status (main w) = 1%Z ∧
  fs (final (main w)) = fs w ∧
  text_at (final (main w)) path = Some C.
Proof.
  intros Hf Hr Hd Hw.
  assert (insert_setup w = (Raise (OSError EACCES (Some path)), w)) as Hrun
    by (by rewrite insert_setup_cases, Hf, Hr, Hd, Hw).
  split_and!; [| done | done | | |].
  - by rewrite with_open_read, Hf, Hr, Hd.
  - unfold main, python. by rewrite Hrun.
  - unfold main, python. by rewrite Hrun.
  - unfold main, python. rewrite Hrun. simpl.
    apply text_at_Some. by exists f.
Qed.

Lemma readonly_page_untouched_witness :
  let w := page true false (Text one_marker) None in
  with_open path R read w = (Ok one_marker, w) ∧
  insert_setup w = (Raise (OSError EACCES (Some path)), w) ∧
  class_name (OSError EACCES (Some path)) = "PermissionError" ∧
  status (main w) = 1%Z ∧
  fs (final (main w)) = fs w ∧
  text_at (final (main w)) path = Some one_marker.
Proof.
  apply (readonly_page_untouched (page true false (Text one_marker) None)
           (File true false (Text one_marker)) one_marker); by vm_compute.
Defined.



(** C10. Two runs that both succeed on pages with the same text leave the
    same text, whatever else differs between the two worlds: the text a
    successful run leaves is [splice] of the text it found and depends on
    nothing else. *)
Theorem output_determined_by_content (w1 w2 : world) (C : str) :
  text_at w1 path = Some C →
  text_at w2 path = Some C →
  status (main w1) = 0%Z →
  status (main w2) = 0%Z →
  text_at (final (main w1)) path = text_at (final (main w2)) path ∧
  text_at (final (main w1)) path = Some (splice C).
Proof.
  intros Ht1 Ht2 Hst1 Hst2.
  destruct (main_text w1 C Ht1 Hst1) as [_ ->].
  by destruct (main_text w2 C Ht2 Hst2) as [_ ->].
Qed.

Lemma output_determined_by_content_witness :
  text_at (final (main (page true true (Text one_marker) None))) path
    = text_at (final (main busy_world)) path ∧
  text_at (final (main (page true true (Text one_marker) None))) path
    = Some (splice one_marker).
Proof.
  apply (output_determined_by_content (page true true (Text one_marker) None)
           busy_world one_marker); by vm_compute.
Defined.

(** Without the condition that both runs succeed the text is not decided by
    the text found: of two pages with the same text, one writable and one
    not, the first gets the block and the second keeps what it had. *)
Lemma output_depends_on_permission :
  let w1 := page true true (Text one_marker) None in
  let w2 := page true false (Text one_marker) None in
  text_at w1 path = text_at w2 path ∧
  text_at (final (main w1)) path ≠ text_at (final (main w2)) path.
Proof. by vm_compute. Qed.

(** * Remarks *)

(** The worked example of the specification, on [replace] itself. *)
Example replace_worked_example :
  replace (lit "X" ++ newline ++ lit "MARKER" ++ newline ++ lit "Y")
          (lit "MARKER") ((lit "INSERTED" ++ newline) ++ lit "MARKER") 1
  = lit "X" ++ newline ++ lit "INSERTED" ++ newline ++ lit "MARKER"
      ++ newline ++ lit "Y".
Proof. by vm_compute. Qed.

(** A write that runs out of room fails after the open has emptied the file:
    the run ends with status 1 and the page is cut short. This is the failure
    C7 does not speak of. *)
Example no_room_cuts_page_short :
  let w := page true true (Text one_marker) (Some 5) in
  status (main w) = 1%Z ∧
  text_at (final (main w)) path = Some (take 5 (splice one_marker)) ∧
  text_at (final (main w)) path ≠ text_at w path.
Proof. by vm_compute. Qed.

(** For an arbitrary marker and block, that the block holds no marker does
    not give the equation of C4: an occurrence may arise across a seam. The
    literals of the script are [isolated], which rules this out. *)
Example block_without_marker_not_enough :
  let old := lit "ab" in
  let blk := lit "b" in
  let s := lit "aab" in
  find blk old = None ∧
  find s old = Some 1 ∧
  replace (replace s old (blk ++ old) 1) old (blk ++ old) 1
    ≠ take 1 s ++ blk ++ blk ++ drop 1 s.
Proof. by vm_compute. Qed.

(** The literals: the block has the 74 double quotes of the source and no
    apostrophe, and the marker cannot overlap itself, so that counting every
    index at which it matches and counting disjoint matches agree. *)
Example setup_html_quotes :
  length (filter (λ c, c = 34%N) setup_html) = 74 ∧ 39%N ∉ setup_html.
Proof. split; [by vm_compute | apply (bool_decide_unpack _); by vm_compute]. Qed.

Example marker_no_self_overlap :
  forallb (λ t, negb (startswith marker (drop t marker)))
          (seq 1 (length marker - 1)) = true.
Proof. by vm_compute. Qed.

(** * Further properties of the script *)

(** ** Line 48 on its own *)

Lemma splice_shape C i :
  find C marker = Some i →
  length (take i C) = i ∧
  ∀ k, i ≤ k → drop (k + length setup_html) (splice C) = drop k C.
Proof.
  intros Hf. pose proof Hf as (Hi & _ & _)%find_Some.
  split; [rewrite length_take; lia |].
  intros k Hk. rewrite (splice_found C i Hf), app_assoc.
  rewrite drop_app_ge; rewrite length_app, length_take; [| lia].
  rewrite drop_drop. f_equal. lia.
Qed.

Lemma find_splice C i :
  find C marker = Some i →
  find (splice C) marker = Some (i + length setup_html).
Proof.
  intros Hf. rewrite (splice_found C i Hf).
  exact (find_after_insert marker setup_html marker_nonempty marker_isolated
           C i Hf).
Qed.

(** X6. In the result of line 48 the marker starts exactly at the indices at
    which it started in the text, moved behind the block: nowhere before the
    end of the block, and behind it wherever it did before. In particular
    the first marker of the result stands right behind the block. *)
Theorem marker_positions_shift (C : str) (i : nat) :
  find C marker = Some i →
  find (splice C) marker = Some (i + length setup_html) ∧
  ∀ k, startswith (drop k (splice C)) marker = true ↔
       i + length setup_html ≤ k ∧
       startswith (drop (k - length setup_html) C) marker = true.
Proof.
  intros Hf. split; [by apply find_splice |]. intros k.
  destruct (splice_shape C i Hf) as [_ Hdrop].
  destruct (decide (i + length setup_html ≤ k)) as [Hk|Hk].
  - specialize (Hdrop (k - length setup_html) ltac:(lia)).
    replace (k - length setup_html + length setup_html) with k in Hdrop by lia.
    rewrite Hdrop. split; [by intros ? | by intros [_ ?]].
  - rewrite (splice_found C i Hf).
    rewrite (no_early marker setup_html marker_nonempty marker_isolated C i Hf)
      by lia.
    split; [done | intros [? _]; lia].
Qed.

Lemma marker_positions_shift_witness :
  find (splice two_markers) marker = Some (2 + length setup_html) ∧
  ∀ k, startswith (drop k (splice two_markers)) marker = true ↔
       2 + length setup_html ≤ k ∧
       startswith (drop (k - length setup_html) two_markers) marker = true.
Proof. apply (marker_positions_shift two_markers 2). by vm_compute. Defined.

(** X5. Line 48 loses nothing: two texts with the same result are the same
    text. *)
Theorem splice_injective (C1 C2 : str) :
  splice C1 = splice C2 → C1 = C2.
Proof.
  assert (∀ C C' i, find C marker = Some i → find C' marker = None →
                    splice C ≠ splice C') as Hmixed.
  { intros C C' i Hf Hnone Heq.
    rewrite (splice_absent C' Hnone) in Heq.
    apply find_splice in Hf. rewrite Heq in Hf. congruence. }
  intros Heq.
  destruct (find C1 marker) as [i1|] eqn:Hf1;
    destruct (find C2 marker) as [i2|] eqn:Hf2.
  - pose proof (find_splice C1 i1 Hf1) as Hr1.
    pose proof (find_splice C2 i2 Hf2) as Hr2.
    rewrite Heq in Hr1. assert (i1 = i2) as <- by (simplify_eq; lia).
    destruct (splice_shape C1 i1 Hf1) as [Hl1 Hd1].
    destruct (splice_shape C2 i1 Hf2) as [Hl2 Hd2].
    rewrite <- (take_drop i1 C1), <- (take_drop i1 C2).
    rewrite <- (Hd1 i1), <- (Hd2 i1), Heq by lia. f_equal.
    apply (f_equal (take i1)) in Heq.
    rewrite (splice_found C1 i1 Hf1), (splice_found C2 i1 Hf2) in Heq.
    by rewrite !take_app_length' in Heq by done.
  - by destruct (Hmixed C1 C2 i1).
  - by destruct (Hmixed C2 C1 i2).
  - by rewrite (splice_absent C1), (splice_absent C2) in Heq.
Qed.

Lemma splice_injective_witness :
  splice one_marker = splice (sample "X" "Y") ∧ one_marker = sample "X" "Y".
Proof.
  split; [reflexivity |]. apply (splice_injective one_marker (sample "X" "Y")).
  reflexivity.
Defined.

Lemma concat_replicate_snoc {A} (l : list A) n :
  concat (replicate n l) ++ l = l ++ concat (replicate n l).
Proof.
  induction n as [|n IH]; simpl; [by rewrite app_nil_r |].
  by rewrite <- app_assoc, IH.
Qed.

(** Line 48 applied [n] times. *)
Lemma iter_splice C i n :
  find C marker = Some i →
  Nat.iter n splice C = take i C ++ concat (replicate n setup_html) ++ drop i C ∧
  find (Nat.iter n splice C) marker = Some (i + n * length setup_html).
Proof.
  intros Hf. pose proof Hf as (Hi & _ & _)%find_Some.
  induction n as [|n [IHtext IHfind]].
  - change (Nat.iter 0 splice C) with C.
    change (concat (replicate 0 setup_html)) with (@nil N).
    rewrite app_nil_l, take_drop. split; [done |]. rewrite Hf. f_equal. lia.
  - rewrite Nat.iter_succ. split.
    + rewrite (splice_found _ _ IHfind), IHtext.
      rewrite (app_assoc (take i C)).
      rewrite take_app_length', drop_app_length';
        [| rewrite length_app, length_concat, length_take;
           rewrite fmap_replicate, sum_list_replicate; lia ..].
      change (replicate (S n) setup_html)
        with (setup_html :: replicate n setup_html).
      rewrite concat_cons, <- !app_assoc. f_equal.
      by rewrite (app_assoc _ setup_html), concat_replicate_snoc,
        <- app_assoc.
    + rewrite (find_splice _ _ IHfind). f_equal. lia.
Qed.

(** ** The script as a whole *)

(** X1. When the page is missing, is a directory, may not be read or cannot
    be decoded, the run ends with status 1 and changes nothing but the error
    stream: the store is what it was (a missing page is not created), and no
    line is printed. *)
Theorem read_failure_changes_nothing (w : world) :
  fs w !! path = None ∨ fs w !! path = Some Dir ∨
  (∃ f, fs w !! path = Some (Reg f) ∧
        (readable f = false ∨ data f = Undecodable)) →
  status (main w) = 1%Z ∧
  fs (final (main w)) = fs w ∧
  room (final (main w)) = room w ∧
  stdout (final (main w)) = stdout w ∧
  stderr (final (main w)) ≠ stderr w.
Proof.
  intros Hcase.
  assert (∃ e, insert_setup w = (Raise e, w)) as [e Hrun].
  { rewrite insert_setup_cases.
    destruct Hcase as [-> | [-> | (f & -> & [Hr | Hd])]]; [by eexists ..| |].
    - rewrite Hr. by eexists.
    - rewrite Hd. destruct (readable f); by eexists. }
  unfold main, python. rewrite Hrun. simpl.
  split_and!; [done ..|]. apply append_grows, traceback_nonempty.
Qed.

Lemma read_failure_changes_nothing_witness :
  let w := World ∅ None EmptyString EmptyString in
  status (main w) = 1%Z ∧
  fs (final (main w)) = fs w ∧
  room (final (main w)) = room w ∧
  stdout (final (main w)) = stdout w ∧
  stderr (final (main w)) ≠ stderr w.
Proof.
  apply (read_failure_changes_nothing (World ∅ None EmptyString EmptyString)).
  by left.
Defined.

(** X3. A run that does not end with status 0 prints nothing: the success
    line is on the output stream only when the new text was written in full.
    A run that ends with status 0 writes nothing to the error stream. *)
Theorem failed_run_prints_nothing (w : world) :
  (status (main w) ≠ 0%Z → stdout (final (main w)) = stdout w) ∧
  (status (main w) = 0%Z →
   stderr (final (main w)) = stderr w ∧
   ∃ C, text_at w path = Some C ∧
        text_at (final (main w)) path = Some (splice C)).
Proof.
  split.
  - unfold main, python. rewrite insert_setup_cases.
    destruct (fs w !! path) as [[|f]|]; [done | | done].
    destruct (readable f); [| done].
    destruct (data f) as [C|]; [| done].
    destruct (writable f); [| done].
    by destruct (has_room w (splice C)).
  - intros Hst.
    pose proof (main_ok_inv w Hst) as (f & C & Hf & Hr & Hw & Hd & Hroom).
    assert (text_at w path = Some C) as Ht by (apply text_at_Some; by exists f).
    destruct (main_text w C Ht Hst) as [Hrun Hnew].
    split; [by rewrite Hrun | by exists C].
Qed.

Lemma failed_run_prints_nothing_witness :
  let w := page true false (Text one_marker) None in
  status (main w) ≠ 0%Z ∧ stdout (final (main w)) = stdout w.
Proof.
  assert (status (main (page true false (Text one_marker) None)) ≠ 0%Z) as Hst
    by by vm_compute.
  split; [exact Hst |].
  by apply (failed_run_prints_nothing (page true false (Text one_marker) None)).
Defined.

(** X7. When the page can be read and written but the device has no room for
    the new text, the run ends with status 1 after the file was emptied: the
    page holds the beginning of the new text that fits, which is not the new
    text, and not the old text either when that does not fit; no line is
    printed. *)
Theorem no_room_leaves_prefix (w : world) (f : file) (C : str) (n : nat) :
  fs w !! path = Some (Reg f) →
  readable f = true → data f = Text C → writable f = true →
  room w = Some n → n < length (splice C) →
  status (main w) = 1%Z ∧
  text_at (final (main w)) path = Some (take n (splice C)) ∧
  take n (splice C) ≠ splice C ∧
  (n < length C → take n (splice C) ≠ C) ∧
  stdout (final (main w)) = stdout w.
Proof.
  intros Hf Hr Hd Hw Hn Hlt.
  assert (has_room w (splice C) = false) as Hroom.
  { unfold has_room. rewrite Hn. apply bool_decide_eq_false. lia. }
  unfold main, python.
  rewrite insert_setup_cases, Hf, Hr, Hd, Hw, Hroom. simpl.
  split_and!; [done | | | | done].
  - unfold text_at, cut_short. simpl. rewrite lookup_insert_eq. simpl.
    by rewrite Hn.
  - intros Heq%(f_equal length). rewrite length_take in Heq. lia.
  - intros HC Heq%(f_equal length). rewrite length_take in Heq. lia.
Qed.

Lemma no_room_leaves_prefix_witness :
  let w := page true true (Text one_marker) (Some 5) in
  status (main w) = 1%Z ∧
  text_at (final (main w)) path = Some (take 5 (splice one_marker)) ∧
  take 5 (splice one_marker) ≠ splice one_marker ∧
  (5 < length one_marker → take 5 (splice one_marker) ≠ one_marker) ∧
  stdout (final (main w)) = stdout w.
Proof.
  apply (no_room_leaves_prefix (page true true (Text one_marker) (Some 5))
           (File true true (Text one_marker)) one_marker 5);
    [by vm_compute .. | vm_compute; lia].
Defined.

(** After a run that went through, the page has the flags it had. *)
Lemma completed_page w f C :
  fs (completed w f C) !! path = Some (Reg (set_data (Text (splice C)) f)) ∧
  room (completed w f C) = room w.
Proof. unfold completed. simpl. by rewrite lookup_insert_eq. Qed.

(** X8. After a run that ended with status 0 on a page with text [C], the
    next run ends with status 0 exactly when the device has room for the
    text with a second block: the first run leaves the page readable and
    writable. *)
Theorem rerun_needs_only_room (w : world) (C : str) :
  text_at w path = Some C →
  status (main w) = 0%Z →
  (status (main (final (main w))) = 0%Z ↔
   has_room w (splice (splice C)) = true).
Proof.
  intros Ht Hst.
  pose proof (main_ok_inv w Hst) as (f & C' & Hf & Hr & Hw & Hd & Hroom).
  apply text_at_Some in Ht as (f' & Hf' & Hd').
  assert (f' = f) as -> by congruence.
  assert (C' = C) as -> by congruence.
  rewrite (main_ok w f C) by done. simpl.
  destruct (completed_page w f C) as [Hpage Hsame]. split.
  - intros (f2 & C2 & Hf2 & _ & _ & Hd2 & Hroom2)%main_ok_inv.
    rewrite Hpage in Hf2. injection Hf2 as <-. simpl in Hd2.
    injection Hd2 as <-. unfold has_room in *. by rewrite <- Hsame.
  - intros Hroom2.
    rewrite (main_ok _ (set_data (Text (splice C)) f) (splice C));
      [done ..|].
    unfold has_room in *. by rewrite Hsame.
Qed.

Lemma rerun_needs_only_room_witness :
  let w := page true true (Text one_marker) (Some 2000) in
  status (main w) = 0%Z ∧
  has_room w (splice (splice one_marker)) = false ∧
  status (main (final (main w))) ≠ 0%Z.
Proof.
  assert (has_room (page true true (Text one_marker) (Some 2000))
            (splice (splice one_marker)) = false) as Hroom by by vm_compute.
  assert (status (main (page true true (Text one_marker) (Some 2000))) = 0%Z)
    as Hst by by vm_compute.
  split; [exact Hst |]. split; [exact Hroom |].
  intros Hagain.
  apply (rerun_needs_only_room (page true true (Text one_marker) (Some 2000))
           one_marker) in Hagain; [| by vm_compute | exact Hst].
  rewrite Hroom in Hagain. discriminate.
Defined.

(** The world after [n] runs in a row on a page without a limit on room. *)
Lemma iter_main w f C n :
  fs w !! path = Some (Reg f) →
  readable f = true → writable f = true → data f = Text C →
  room w = None →
  let wn := Nat.iter n (λ w', final (main w')) w in
  fs wn !! path = Some (Reg (set_data (Text (Nat.iter n splice C)) f)) ∧
  room wn = None ∧
  (∀ k, k < n →
        status (main (Nat.iter k (λ w', final (main w')) w)) = 0%Z).
Proof.
  intros Hf Hr Hw Hd Hroom. cbv zeta.
  induction n as [|n (IHf & IHroom & IHst)].
  - change (Nat.iter 0 ?g ?x) with x. split_and!; [| done | lia].
    rewrite Hf. destruct f. simpl in *. by subst.
  - set (wn := Nat.iter n (λ w', final (main w')) w) in *.
    assert (main wn = Outcome 0 (completed wn
              (set_data (Text (Nat.iter n splice C)) f)
              (Nat.iter n splice C))) as Hrun.
    { apply main_ok; [done ..|]. unfold has_room. by rewrite IHroom. }
    rewrite !Nat.iter_succ. fold wn. rewrite Hrun. simpl final.
    destruct (completed_page wn (set_data (Text (Nat.iter n splice C)) f)
                (Nat.iter n splice C)) as [Hpage Hsame].
    split_and!; [done | congruence |].
    intros k Hk. destruct (decide (k = n)) as [-> | Hne].
    + fold wn. by rewrite Hrun.
    + apply IHst. lia.
Qed.

(** X4. On a page that holds the marker and can be read and written, on a
    device without a limit on room, [n] runs in a row all end with status 0
    and leave [n] copies of the block, one after the other, in front of the
    first marker of the text the first run found. *)
Theorem repeated_runs_stack_blocks
    (w : world) (f : file) (C : str) (i n : nat) :
  fs w !! path = Some (Reg f) →
  readable f = true → writable f = true → data f = Text C →
  room w = None →
  find C marker = Some i →
  (∀ k, k < n →
        status (main (Nat.iter k (λ w', final (main w')) w)) = 0%Z) ∧
  text_at (Nat.iter n (λ w', final (main w')) w) path
    = Some (take i C ++ concat (replicate n setup_html) ++ drop i C).
Proof.
  intros Hf Hr Hw Hd Hroom Hfind.
  destruct (iter_main w f C n Hf Hr Hw Hd Hroom) as (Hpage & _ & Hst).
  split; [done |].
  unfold text_at. rewrite Hpage. simpl.
  by destruct (iter_splice C i n Hfind) as [-> _].
Qed.

Lemma repeated_runs_stack_blocks_witness :
  let w := page true true (Text one_marker) None in
  (∀ k, k < 3 →
        status (main (Nat.iter k (λ w', final (main w')) w)) = 0%Z) ∧
  text_at (Nat.iter 3 (λ w', final (main w')) w) path
    = Some (take 2 one_marker ++ concat (replicate 3 setup_html)
              ++ drop 2 one_marker).
Proof.
  apply (repeated_runs_stack_blocks (page true true (Text one_marker) None)
           (File true true (Text one_marker)) one_marker 2 3); by vm_compute.
Defined.
